(** * MatLock: a channel-based toy mutex (MatLock.go)

    The Go source keeps a boolean flag [locked] and a buffered channel
    [wait] of capacity one.  [Lock] spins on the flag, parking on the
    channel while the flag is set; [Unlock] clears the flag and posts a
    wake-up with a non-blocking send.

    The development has three layers:
    - [Chan]: buffered channels of [struct{}] values, with the two channel
      operations the source uses (blocking receive, [select]/[default] send);
    - the sequential reading of [NewQutex], [Lock] and [Unlock], as functions
      returning an outcome together with the log of the memory and channel
      operations performed;
    - a statement-level machine in which several goroutines interleave on one
      shared [MatLock], used for the mutual-exclusion question. *)

From Stdlib Require Import Arith Lia Bool.
From stdpp Require Import base strings list.

(** ** Buffered channels of [struct{}] *)

Module Chan.

(** A channel made by [make(chan struct{}, n)]: its capacity and the values
    currently buffered, oldest first. *)
Record chan : Type := mkChan { cap : nat; buf : list unit }.

(** [make(chan struct{}, n)] *)
Definition make (n : nat) : chan := {| cap := n; buf := [] |}.

(** [select { case c <- v: default: }] on a buffered channel with no parked
    receiver: the value is appended when there is room, otherwise the
    [default] arm runs and the channel is unchanged ([None]). *)
Definition try_send (c : chan) (v : unit) : option chan :=
  if length (buf c) <? cap c
  then Some {| cap := cap c; buf := buf c ++ [v] |}
  else None.

(** [<-c]: the oldest buffered value and the remaining channel, or [None]
    when the buffer is empty and the receiver has to park. *)
Definition recv (c : chan) : option (unit * chan) :=
  match buf c with
  | [] => None
  | v :: rest => Some (v, {| cap := cap c; buf := rest |})
  end.

(** Number of buffered values, Go's [len(c)]. *)
Definition len (c : chan) : nat := length (buf c).

End Chan.

Import Chan.

(** ** The lock *)

(** [type MatLock struct { locked bool; wait chan struct{} }] *)
Record MatLock : Type := mkMatLock { locked : bool; wait : chan }.

Definition set_locked (b : bool) (q : MatLock) : MatLock :=
  {| locked := b; wait := wait q |}.

Definition set_wait (c : chan) (q : MatLock) : MatLock :=
  {| locked := locked q; wait := c |}.

(** [func NewQutex() *MatLock] *)
Definition NewQutex : MatLock := {| locked := false; wait := make 1 |}.

(** Operations on the lock's fields, in program order. *)
Inductive event : Type :=
| EvLoad (b : bool)        (* read of q.locked, with the value seen *)
| EvStore (b : bool)       (* q.locked = b *)
| EvTrySend (sent : bool)  (* select-send on q.wait; false: default arm *)
| EvRecv.                  (* completed <-q.wait *)

(** How a call ends when no other goroutine runs in between. *)
Inductive outcome : Type :=
| Returned (q : MatLock)
| Panicked (msg : string) (q : MatLock)
| Blocked (q : MatLock)      (* parked on <-q.wait with an empty buffer *)
| OutOfFuel (q : MatLock).   (* iteration budget of the model exhausted *)

(** [func (q *MatLock) Lock()].  [fuel] bounds the iterations of the
    [for] loop. *)
Fixpoint Lock (fuel : nat) (q : MatLock) : outcome * list event :=
  match fuel with
  | 0 => (OutOfFuel q, [])
  | S fuel' =>
      if negb (locked q) then
        (Returned (set_locked true q), [EvLoad false; EvStore true])
      else
        match recv (wait q) with
        | None => (Blocked q, [EvLoad true])
        | Some (_, c) =>
            let (o, tr) := Lock fuel' (set_wait c q) in
            (o, EvLoad true :: EvRecv :: tr)
        end
  end.

(** [func (q *MatLock) Unlock()] *)
Definition Unlock (q : MatLock) : outcome * list event :=
  if negb (locked q) then
    (Panicked "unlock of unlocked qutex"%string q, [EvLoad false])
  else
    let q1 := set_locked false q in
    match try_send (wait q1) tt with
    | Some c => (Returned (set_wait c q1),
                 [EvLoad true; EvStore false; EvTrySend true])
    | None => (Returned q1,
               [EvLoad true; EvStore false; EvTrySend false])
    end.

(** *** Reading a log *)

Definition is_store (e : event) : bool :=
  match e with EvStore _ => true | _ => false end.

Definition is_chan_op (e : event) : bool :=
  match e with EvTrySend _ | EvRecv => true | _ => false end.

Definition is_recv (e : event) : bool :=
  match e with EvRecv => true | _ => false end.

(** The changes of the flag a log performs, as (old, new) pairs, starting
    from the flag value [b]. *)
Fixpoint flag_writes (b : bool) (tr : list event) : list (bool * bool) :=
  match tr with
  | [] => []
  | EvStore b' :: tr' => (b, b') :: flag_writes b' tr'
  | _ :: tr' => flag_writes b tr'
  end.

(** *** Sequences of calls from one goroutine *)

Inductive op : Type := OpLock | OpUnlock.

Definition call (fuel : nat) (o : op) (q : MatLock) : outcome * list event :=
  match o with
  | OpLock => Lock fuel q
  | OpUnlock => Unlock q
  end.

(** Runs the calls in order; the first call that does not return ends the
    run with its outcome. *)
Fixpoint run_ops (fuel : nat) (ops : list op) (q : MatLock)
  : outcome * list event :=
  match ops with
  | [] => (Returned q, [])
  | o :: rest =>
      match call fuel o q with
      | (Returned q', tr) =>
          let (r, tr') := run_ops fuel rest q' in (r, tr ++ tr')
      | stop => stop
      end
  end.

(** [n] rounds of [Lock(); Unlock()]. *)
Fixpoint cycles (n : nat) : list op :=
  match n with
  | 0 => []
  | S n' => OpLock :: OpUnlock :: cycles n'
  end.

Definition unlocks (ops : list op) : nat :=
  length (List.filter (fun o => match o with OpUnlock => true | _ => false end) ops).

(** The lock an outcome leaves behind. *)
Definition final (o : outcome) : MatLock :=
  match o with
  | Returned q | Panicked _ q | Blocked q | OutOfFuel q => q
  end.

(** The wake channel is the one [NewQutex] made and is not over-full. *)
Definition wake_bounded (q : MatLock) : Prop :=
  cap (wait q) = 1 ∧ len (wait q) ≤ 1.

(** The log of a [Lock] that finds the flag set and [k] buffered signals:
    each signal is received and the flag re-read, then the call parks. *)
Fixpoint spin (k : nat) : list event :=
  match k with
  | 0 => [EvLoad true]
  | S k' => EvLoad true :: EvRecv :: spin k'
  end.

(** ** Goroutines interleaving on one lock *)

(** Where a goroutine stands.  The points inside [Lock] and [Unlock] are the
    statements of MatLock.go; [Idle] and [Crit] are the caller's code outside
    and inside its critical section. *)
Inductive pc : Type :=
| Idle          (* not holding; next: call q.Lock() *)
| LockCheck     (* Lock, line 17: if !q.locked *)
| LockSet       (* Lock, line 18: q.locked = true (then return) *)
| LockRecv      (* Lock, line 21: <-q.wait *)
| Crit          (* Lock has returned; next: call q.Unlock() *)
| UnlockCheck   (* Unlock, line 26: if !q.locked *)
| UnlockClear   (* Unlock, line 29: q.locked = false *)
| UnlockSend    (* Unlock, lines 31-34: select send / default *)
| Dead.         (* Unlock, line 27: panicked *)

(** One statement of a goroutine standing at [p], on the lock [q]: the next
    program point, the lock afterwards and the operations performed.  [None]:
    the goroutine cannot move (parked on the empty channel, or dead). *)
Definition gstep (p : pc) (q : MatLock) : option (pc * MatLock * list event) :=
  match p with
  | Idle => Some (LockCheck, q, [])
  | LockCheck =>
      if negb (locked q) then Some (LockSet, q, [EvLoad false])
      else Some (LockRecv, q, [EvLoad true])
  | LockSet => Some (Crit, set_locked true q, [EvStore true])
  | LockRecv =>
      match recv (wait q) with
      | Some (_, c) => Some (LockCheck, set_wait c q, [EvRecv])
      | None => None
      end
  | Crit => Some (UnlockCheck, q, [])
  | UnlockCheck =>
      if negb (locked q) then Some (Dead, q, [EvLoad false])
      else Some (UnlockClear, q, [EvLoad true])
  | UnlockClear => Some (UnlockSend, set_locked false q, [EvStore false])
  | UnlockSend =>
      match try_send (wait q) tt with
      | Some c => Some (Idle, set_wait c q, [EvTrySend true])
      | None => Some (Idle, q, [EvTrySend false])
      end
  | Dead => None
  end.

(** A call is over when control is back in the caller (or the goroutine died). *)
Definition at_rest (p : pc) : bool :=
  match p with Idle | Crit | Dead => true | _ => false end.

(** One goroutine running alone from [p] until its call is over, it parks,
    or [fuel] statements have run. *)
Fixpoint grun (fuel : nat) (p : pc) (q : MatLock) : pc * MatLock * list event :=
  match fuel with
  | 0 => (p, q, [])
  | S fuel' =>
      match gstep p q with
      | None => (p, q, [])
      | Some (p', q', ev) =>
          if at_rest p' then (p', q', ev)
          else let '(p'', q'', tr) := grun fuel' p' q' in (p'', q'', ev ++ tr)
      end
  end.

(** The shared lock and the program point of every goroutine. *)
Record world : Type := mkWorld { lock : MatLock; procs : list pc }.

(** [n] goroutines about to contend for a fresh lock. *)
Definition init (n : nat) : world :=
  {| lock := NewQutex; procs := replicate n Idle |}.

(** Goroutine [i] runs one statement. *)
Definition step (i : nat) (w : world) : option world :=
  match procs w !! i with
  | Some p =>
      match gstep p (lock w) with
      | Some (p', q', _) => Some {| lock := q'; procs := <[i := p']> (procs w) |}
      | None => None
      end
  | None => None
  end.

(** Scheduling a goroutine that cannot move (or does not exist) changes
    nothing. *)
Definition exec1 (i : nat) (w : world) : world := default w (step i w).

(** The world after the interleaving [sched], a list of goroutine indices. *)
Fixpoint exec (sched : list nat) (w : world) : world :=
  match sched with
  | [] => w
  | i :: rest => exec rest (exec1 i w)
  end.

(** A goroutine holds the lock from the return of [Lock] until its [Unlock]
    has cleared the flag. *)
Definition holder (p : pc) : bool :=
  match p with Crit | UnlockCheck | UnlockClear => true | _ => false end.

(** A goroutine has seen the flag clear and has not yet set it. *)
Definition setting (p : pc) : bool :=
  match p with LockSet => true | _ => false end.

Fixpoint count (f : pc → bool) (l : list pc) : nat :=
  match l with
  | [] => 0
  | p :: l' => (if f p then 1 else 0) + count f l'
  end.

Definition holders (w : world) : nat := count holder (procs w).

Definition mutual_exclusion (w : world) : Prop := holders w ≤ 1.

(** The interleaving never separates a goroutine's test of the flag (line 17)
    from its store (line 18): whenever some goroutine stands at [LockSet], it
    is the one that runs next. *)
Fixpoint atomic_test_and_set (sched : list nat) (w : world) : Prop :=
  match sched with
  | [] => True
  | i :: rest =>
      (∀ j, procs w !! j = Some LockSet → j = i) ∧
      atomic_test_and_set rest (exec1 i w)
  end.

(** Where a goroutine running alone stands when its call has the outcome [o]. *)
Definition Lock_exit (o : outcome) : pc :=
  match o with
  | Returned _ => Crit
  | Blocked _ => LockRecv
  | Panicked _ _ => Dead
  | OutOfFuel _ => LockCheck
  end.

Definition Unlock_exit (o : outcome) : pc :=
  match o with
  | Panicked _ _ => Dead
  | _ => Idle
  end.

(** What the flag says about the goroutines when test-and-set is not split:
    at most one goroutine holds the lock or is about to set the flag; a
    clear flag means nobody holds; a set flag means nobody is about to set
    it. *)
Definition flag_tracks_holder (w : world) : Prop :=
  count holder (procs w) + count setting (procs w) ≤ 1 ∧
  (locked (lock w) = false → count holder (procs w) = 0) ∧
  (locked (lock w) = true → count setting (procs w) = 0).

(** *** Further readings of a world *)

(** Parked, or about to park, on [<-q.wait] (line 21). *)
Definition waiting (p : pc) : bool :=
  match p with LockRecv => true | _ => false end.

(** Standing at a statement that still reads or writes the flag on the way
    into the lock (lines 17, 18), or that has the clearing of the flag or the
    wake-up send still to do (lines 29, 31-34). *)
Definition in_flight (p : pc) : bool :=
  match p with
  | LockCheck | LockSet | UnlockClear | UnlockSend => true
  | _ => false
  end.

(** Stopped by the panic of line 27. *)
Definition dead (p : pc) : bool :=
  match p with Dead => true | _ => false end.

(** Nobody holds the lock or is inside one of its calls, apart from the
    goroutines parked in [Lock]. *)
Definition quiescent (w : world) : Prop :=
  ∀ i p, procs w !! i = Some p → p = Idle ∨ p = LockRecv ∨ p = Dead.

(** The calls of one goroutine respect the protocol from a lock whose flag
    is [held]: [Lock] only when the flag is clear, [Unlock] only when it is
    set. *)
Fixpoint alternates (held : bool) (ops : list op) : bool :=
  match ops with
  | [] => true
  | OpLock :: rest => negb held && alternates true rest
  | OpUnlock :: rest => held && alternates false rest
  end.

(** The flag the last call of [ops] leaves, [held] when there is none. *)
Definition flag_after (held : bool) (ops : list op) : bool :=
  match last ops with
  | Some OpLock => true
  | Some OpUnlock => false
  | None => held
  end.

(** A set flag has a goroutine that will clear it. *)
Definition flag_has_holder (w : world) : Prop :=
  locked (lock w) = true → 1 ≤ count holder (procs w).

(** A parked goroutine is owed a wake-up by the channel, by a goroutine on
    its way through a call, or by whoever has the flag set. *)
Definition wake_pending (w : world) : Prop :=
  count waiting (procs w) = 0 ∨
  1 ≤ len (wait (lock w)) ∨
  1 ≤ count in_flight (procs w) ∨
  locked (lock w) = true.

(** *** The log of a call inside an interleaving *)







(** * Properties *)

(** ** Channel facts *)

Section ChanFacts.
Variable c : chan.

Lemma try_send_room v :
  len c < cap c → try_send c v = Some {| cap := cap c; buf := buf c ++ [v] |}.
Proof.
  intros Hroom. unfold try_send, len in *.
  destruct (Nat.ltb_spec (length (buf c)) (cap c)); [reflexivity | lia].
Qed.

Lemma try_send_full v : cap c ≤ len c → try_send c v = None.
Proof.
  intros Hfull. unfold try_send, len in *.
  destruct (Nat.ltb_spec (length (buf c)) (cap c)); [lia | reflexivity].
Qed.

Lemma try_send_Some v c' :
  try_send c v = Some c' →
  cap c' = cap c ∧ len c' = S (len c) ∧ len c' ≤ cap c.
Proof.
  unfold try_send, len.
  destruct (Nat.ltb_spec (length (buf c)) (cap c)); [|discriminate].
  intros [= <-]. cbn. rewrite length_app. cbn. lia.
Qed.

Lemma recv_Some v c' :
  recv c = Some (v, c') → cap c' = cap c ∧ buf c = v :: buf c'.
Proof.
  unfold recv. destruct (buf c) as [|u rest]; [discriminate|].
  intros [= <- <-]. auto.
Qed.

Lemma recv_None : recv c = None ↔ buf c = [].
Proof. unfold recv. destruct (buf c); split; congruence. Qed.

End ChanFacts.

(** ** [Lock] alone *)

Lemma Lock_free fuel q :
  locked q = false →
  Lock (S fuel) q = (Returned (set_locked true q), [EvLoad false; EvStore true]).
Proof. intros Hq. cbn. rewrite Hq. reflexivity. Qed.

(** With the flag set, a lone [Lock] drains the buffered signals and parks;
    it does not return however many signals it receives. *)
Lemma Lock_held fuel : ∀ q,
  locked q = true →
  len (wait q) < fuel →
  Lock fuel q =
    (Blocked (set_wait {| cap := cap (wait q); buf := [] |} q),
     spin (len (wait q))).
Proof.
  induction fuel as [|fuel IH]; intros [b [n l]] Hb Hlen; cbn in *; [lia|].
  subst b. unfold recv. cbn. destruct l as [|[] l]; [reflexivity|].
  cbn in Hlen. unfold set_wait at 1. cbn [locked].
  rewrite IH; [reflexivity | reflexivity | cbn; lia].
Qed.

Lemma Lock_held_not_Returned fuel : ∀ q q' tr,
  locked q = true → Lock fuel q ≠ (Returned q', tr).
Proof.
  induction fuel as [|fuel IH]; intros q q' tr Hq; cbn; [discriminate|].
  rewrite Hq. cbn. destruct (recv (wait q)) as [[u c]|]; [|discriminate].
  destruct (Lock fuel (set_wait c q)) as [o tr0] eqn:E.
  intros [= -> _]. eapply (IH (set_wait c q)); [exact Hq | exact E].
Qed.

Lemma Lock_not_Panicked fuel : ∀ q msg q' tr,
  Lock fuel q ≠ (Panicked msg q', tr).
Proof.
  induction fuel as [|fuel IH]; intros q msg q' tr; cbn; [discriminate|].
  destruct (negb (locked q)); [discriminate|].
  destruct (recv (wait q)) as [[u c]|]; [|discriminate].
  destruct (Lock fuel (set_wait c q)) as [o tr0] eqn:E.
  intros [= -> _]. exact (IH _ _ _ _ E).
Qed.

Lemma Lock_Returned_inv fuel q q' tr :
  Lock fuel q = (Returned q', tr) →
  locked q = false ∧ q' = set_locked true q ∧ tr = [EvLoad false; EvStore true].
Proof.
  intros H. destruct (locked q) eqn:Hq.
  - exfalso. exact (Lock_held_not_Returned _ _ _ _ Hq H).
  - destruct fuel as [|fuel]; [discriminate|].
    rewrite (Lock_free _ _ Hq) in H. injection H as <- <-. auto.
Qed.

(** The wake channel after any [Lock], whatever its outcome: same capacity,
    no more signals than before. *)
Lemma Lock_wait fuel : ∀ q,
  cap (wait (final (Lock fuel q).1)) = cap (wait q) ∧
  len (wait (final (Lock fuel q).1)) ≤ len (wait q).
Proof.
  induction fuel as [|fuel IH]; intros q; cbn; [lia|].
  destruct (negb (locked q)); cbn; [lia|].
  destruct (recv (wait q)) as [[u c]|] eqn:E; cbn; [|lia].
  apply recv_Some in E as [Hcap Hbuf].
  specialize (IH (set_wait c q)).
  destruct (Lock fuel (set_wait c q)) as [o tr0]. cbn in *.
  unfold len in *. rewrite Hbuf. cbn. lia.
Qed.

(** ** [Unlock] alone *)

Lemma Unlock_unheld q :
  locked q = false →
  Unlock q = (Panicked "unlock of unlocked qutex"%string q, [EvLoad false]).
Proof. intros Hq. unfold Unlock. rewrite Hq. reflexivity. Qed.

Lemma Unlock_held_room q :
  locked q = true → len (wait q) < cap (wait q) →
  Unlock q =
    (Returned {| locked := false;
                 wait := {| cap := cap (wait q); buf := buf (wait q) ++ [tt] |} |},
     [EvLoad true; EvStore false; EvTrySend true]).
Proof.
  intros Hq Hroom. unfold Unlock. rewrite Hq. cbn.
  rewrite try_send_room by exact Hroom. reflexivity.
Qed.

Lemma Unlock_held_full q :
  locked q = true → cap (wait q) ≤ len (wait q) →
  Unlock q =
    (Returned {| locked := false; wait := wait q |},
     [EvLoad true; EvStore false; EvTrySend false]).
Proof.
  intros Hq Hfull. unfold Unlock. rewrite Hq. cbn.
  rewrite try_send_full by exact Hfull. reflexivity.
Qed.

Lemma Unlock_wait q :
  cap (wait (final (Unlock q).1)) = cap (wait q) ∧
  len (wait q) ≤ len (wait (final (Unlock q).1)) ∧
  len (wait (final (Unlock q).1)) ≤ Nat.max (len (wait q)) (cap (wait q)).
Proof.
  unfold Unlock. destruct (negb (locked q)); cbn; [lia|].
  destruct (try_send (wait q) tt) as [c|] eqn:E; cbn; [|lia].
  apply try_send_Some in E. lia.
Qed.

(** A stale signal is consumed, the flag is read again, and the call parks. *)
Example Lock_held_with_stale_signal :
  Lock 5 {| locked := true; wait := {| cap := 1; buf := [tt] |} |} =
    (Blocked {| locked := true; wait := {| cap := 1; buf := [] |} |},
     [EvLoad true; EvRecv; EvLoad true]).
Proof. reflexivity. Qed.

(** ** The constructor *)

(** C6.  [NewQutex] returns a lock in the Free state: the flag is clear and
    the wake channel has capacity one and nothing buffered. *)
Theorem NewQutex_is_free :
  locked NewQutex = false ∧
  cap (wait NewQutex) = 1 ∧
  buf (wait NewQutex) = [] ∧
  len (wait NewQutex) = 0.
Proof. unfold NewQutex, make, len. cbn. auto. Qed.

(** ** Acquire *)

(** [Lock] run alone: a call that returns read the flag as false and stored
    true, and that store is the only write of the flag the call performed, a
    change from false to true; the flag is set in the lock it returns. *)
Theorem Lock_returns_by_setting_clear_flag fuel q q' tr :
  Lock fuel q = (Returned q', tr) →
  locked q = false ∧
  tr = [EvLoad false; EvStore true] ∧
  flag_writes (locked q) tr = [(false, true)] ∧
  q' = set_locked true q ∧
  locked q' = true.
Proof.
  intros H. apply Lock_Returned_inv in H as (Hq & -> & ->).
  rewrite Hq. cbn. auto.
Qed.

Lemma Lock_returns_by_setting_clear_flag_witness :
  Lock 1 NewQutex =
    (Returned (set_locked true NewQutex), [EvLoad false; EvStore true]) ∧
  locked (set_locked true NewQutex) = true.
Proof.
  split; [reflexivity|].
  apply (Lock_returns_by_setting_clear_flag 1 NewQutex
           (set_locked true NewQutex) [EvLoad false; EvStore true]).
  reflexivity.
Defined.

(** C5.  The loop of [Lock].  An iteration that finds the flag clear stores
    true and returns at once.  One that finds it set receives from the wake
    channel: it parks when nothing is buffered, and otherwise takes the
    oldest signal out of the buffer and goes round again, to the test of the
    flag.  So with the flag set, [Lock] run alone uses up every buffered
    signal, re-reading the flag after each, and is left parked: a signal
    alone never makes it return.  The statements of the machine take the
    same branches. *)
Theorem Lock_loop_shape fuel q :
  (locked q = false →
   Lock (S fuel) q =
     (Returned {| locked := true; wait := wait q |},
      [EvLoad false; EvStore true])) ∧
  (locked q = true → buf (wait q) = [] →
   Lock (S fuel) q = (Blocked q, [EvLoad true])) ∧
  (locked q = true → ∀ v rest, buf (wait q) = v :: rest →
   Lock (S fuel) q =
     (let (o, tr) :=
        Lock fuel {| locked := true;
                     wait := {| cap := cap (wait q); buf := rest |} |} in
      (o, EvLoad true :: EvRecv :: tr))) ∧
  (locked q = true → len (wait q) < fuel →
   Lock fuel q =
     (Blocked {| locked := true;
                 wait := {| cap := cap (wait q); buf := [] |} |},
      spin (len (wait q)))) ∧
  (locked q = true → ∀ q' tr, Lock fuel q ≠ (Returned q', tr)) ∧
  gstep LockCheck q =
    Some (if locked q then LockRecv else LockSet, q, [EvLoad (locked q)]) ∧
  gstep LockSet q =
    Some (Crit, {| locked := true; wait := wait q |}, [EvStore true]) ∧
  (buf (wait q) = [] → gstep LockRecv q = None) ∧
  (∀ p' q' ev, gstep LockRecv q = Some (p', q', ev) →
     p' = LockCheck ∧ ev = [EvRecv] ∧ locked q' = locked q ∧
     cap (wait q') = cap (wait q) ∧ buf (wait q) = tt :: buf (wait q')).
Proof.
  split; [|split; [|split; [|split; [|split; [|split; [|split; [|split]]]]]]].
  - apply Lock_free.
  - intros Hq Hb. cbn. rewrite Hq. cbn.
    apply recv_None in Hb. rewrite Hb. reflexivity.
  - intros Hq v rest Hb. cbn. rewrite Hq. cbn.
    unfold recv. rewrite Hb. unfold set_wait. rewrite Hq. reflexivity.
  - intros Hq Hfuel. rewrite Lock_held by assumption.
    unfold set_wait. rewrite Hq. reflexivity.
  - intros Hq q' tr. apply Lock_held_not_Returned, Hq.
  - cbn. destruct (locked q); reflexivity.
  - reflexivity.
  - intros Hb. cbn. apply recv_None in Hb. rewrite Hb. reflexivity.
  - intros p' q' ev. cbn.
    destruct (recv (wait q)) as [[[] c]|] eqn:Er; [|discriminate].
    intros [= <- <- <-]. apply recv_Some in Er as [Hcap Hbuf]. cbn. auto.
Qed.

(** C8.  [Lock] has no failing exit: it never panics, and given enough
    iterations for the signals buffered at the call it either returns with
    the flag set or is parked on the emptied wake channel. *)
Theorem Lock_blocks_or_succeeds q :
  (∀ fuel msg q' tr, Lock fuel q ≠ (Panicked msg q', tr)) ∧
  (∀ fuel, len (wait q) < fuel →
     ∃ q' tr,
       (Lock fuel q = (Returned q', tr) ∧ locked q' = true) ∨
       (Lock fuel q = (Blocked q', tr) ∧ locked q' = true ∧
        buf (wait q') = [])).
Proof.
  split.
  - intros fuel msg q' tr. apply Lock_not_Panicked.
  - intros fuel Hfuel. destruct (locked q) eqn:Hq.
    + eexists _, _. right. rewrite Lock_held by assumption.
      split; [reflexivity|]. cbn. auto.
    + destruct fuel as [|fuel]; [lia|].
      eexists _, _. left. rewrite Lock_free by assumption.
      split; reflexivity.
Qed.

(** C10.  A [Lock] that finds the flag clear touches only the flag: its log
    has no channel operation and the wake channel is the one it was given.
    So the signal a preceding [Unlock] left buffered is still there after
    the next uncontended [Lock]. *)
Theorem Lock_free_keeps_wake_channel :
  (∀ q fuel, locked q = false →
     ∃ q' tr, Lock (S fuel) q = (Returned q', tr) ∧
              wait q' = wait q ∧ locked q' = true ∧
              List.filter is_chan_op tr = []) ∧
  (∀ q fuel, locked q = true → 0 < cap (wait q) →
     ∃ q1 tr1 q2 tr2,
       Unlock q = (Returned q1, tr1) ∧
       Lock (S fuel) q1 = (Returned q2, tr2) ∧
       wait q2 = wait q1 ∧ 1 ≤ len (wait q2)) ∧
  (Lock 1 NewQutex).1 = Returned (set_locked true NewQutex) ∧
  (Unlock (set_locked true NewQutex)).1 =
    Returned {| locked := false; wait := {| cap := 1; buf := [tt] |} |} ∧
  (Lock 1 {| locked := false; wait := {| cap := 1; buf := [tt] |} |}).1 =
    Returned {| locked := true; wait := {| cap := 1; buf := [tt] |} |}.
Proof.
  split; [|split; [|repeat split]].
  - intros q fuel Hq. eexists _, _. rewrite Lock_free by assumption.
    repeat split.
  - intros q fuel Hq Hcap.
    destruct (Nat.lt_ge_cases (len (wait q)) (cap (wait q))) as [Hroom|Hfull].
    + eexists _, _, _, _. rewrite Unlock_held_room by assumption.
      split; [reflexivity|]. rewrite Lock_free by reflexivity.
      split; [reflexivity|]. split; [reflexivity|].
      unfold len. cbn. rewrite length_app. cbn. lia.
    + eexists _, _, _, _. rewrite Unlock_held_full by assumption.
      split; [reflexivity|]. rewrite Lock_free by reflexivity.
      split; [reflexivity|]. split; [reflexivity|]. cbn. lia.
Qed.

(** ** Release *)

(** C2.  [Unlock] panics exactly when the flag is clear, and then changes
    nothing: the lock carried by the panic is the lock it was called on and
    the log holds the one read of the flag, no store and no channel
    operation.  On a fresh lock it panics. *)
Theorem Unlock_panics_iff_not_locked q :
  ((∃ msg q' tr, Unlock q = (Panicked msg q', tr)) ↔ locked q = false) ∧
  (∀ msg q' tr, Unlock q = (Panicked msg q', tr) →
     q' = q ∧ msg = "unlock of unlocked qutex"%string ∧
     tr = [EvLoad false]) ∧
  Unlock NewQutex =
    (Panicked "unlock of unlocked qutex"%string NewQutex, [EvLoad false]).
Proof.
  assert (Hinv : ∀ msg q' tr, Unlock q = (Panicked msg q', tr) →
            locked q = false ∧ q' = q ∧
            msg = "unlock of unlocked qutex"%string ∧ tr = [EvLoad false]).
  { intros msg q' tr. unfold Unlock. destruct (locked q); cbn.
    - destruct (try_send _ _); discriminate.
    - intros [= <- <- <-]. auto. }
  split; [split|split].
  - intros (msg & q' & tr & H). apply Hinv in H. tauto.
  - intros Hq. eexists _, _, _. apply Unlock_unheld, Hq.
  - intros msg q' tr H. apply Hinv in H. tauto.
  - reflexivity.
Qed.

(** C4.  Called with the flag set, [Unlock] stores false and then makes one
    select-send on the wake channel (capacity one): into the empty channel
    the signal is enqueued, on a channel that already holds one it is
    dropped; either way the call returns. *)
Theorem Unlock_held_clears_then_signals q :
  locked q = true →
  cap (wait q) = 1 →
  (buf (wait q) = [] →
   Unlock q =
     (Returned {| locked := false; wait := {| cap := 1; buf := [tt] |} |},
      [EvLoad true; EvStore false; EvTrySend true])) ∧
  (buf (wait q) ≠ [] →
   Unlock q =
     (Returned {| locked := false; wait := wait q |},
      [EvLoad true; EvStore false; EvTrySend false])) ∧
  (∃ q' sent,
     Unlock q = (Returned q', [EvLoad true; EvStore false; EvTrySend sent]) ∧
     locked q' = false).
Proof.
  intros Hq Hcap.
  assert (Hfull : buf (wait q) ≠ [] →
            Unlock q = (Returned {| locked := false; wait := wait q |},
                        [EvLoad true; EvStore false; EvTrySend false])).
  { intros Hb. apply Unlock_held_full; [exact Hq|].
    rewrite Hcap. unfold len. destruct (buf (wait q)); [congruence | cbn; lia]. }
  assert (Hroom : buf (wait q) = [] →
            Unlock q =
              (Returned {| locked := false; wait := {| cap := 1; buf := [tt] |} |},
               [EvLoad true; EvStore false; EvTrySend true])).
  { intros Hb. rewrite Unlock_held_room; [rewrite Hb, Hcap; reflexivity | exact Hq |].
    unfold len. rewrite Hb, Hcap. cbn. lia. }
  split; [exact Hroom|]. split; [exact Hfull|].
  destruct (buf (wait q)) eqn:Hb.
  - eexists _, _. rewrite Hroom by reflexivity. split; reflexivity.
  - eexists _, _. rewrite Hfull by discriminate. split; reflexivity.
Qed.

Lemma Unlock_held_clears_then_signals_witness :
  Unlock {| locked := true; wait := make 1 |} =
    (Returned {| locked := false; wait := {| cap := 1; buf := [tt] |} |},
     [EvLoad true; EvStore false; EvTrySend true]).
Proof.
  apply (Unlock_held_clears_then_signals {| locked := true; wait := make 1 |});
    reflexivity.
Defined.

(** ** Sequences of calls *)

Lemma call_wake_bounded fuel o q :
  wake_bounded q → wake_bounded (final (call fuel o q).1).
Proof.
  intros [Hcap Hlen]. unfold wake_bounded. destruct o; cbn [call].
  - pose proof (Lock_wait fuel q). lia.
  - pose proof (Unlock_wait q). lia.
Qed.

Lemma run_ops_app fuel ops1 : ∀ ops2 q q1 tr1,
  run_ops fuel ops1 q = (Returned q1, tr1) →
  run_ops fuel (ops1 ++ ops2) q =
    (let (r, tr2) := run_ops fuel ops2 q1 in (r, tr1 ++ tr2)).
Proof.
  induction ops1 as [|o ops1 IH]; intros ops2 q q1 tr1; cbn [run_ops app].
  - intros [= <- <-]. destruct (run_ops fuel ops2 q); reflexivity.
  - destruct (call fuel o q) as [[q0| | |] tr0]; try discriminate.
    destruct (run_ops fuel ops1 q0) as [r tr] eqn:E.
    intros [= -> <-]. rewrite (IH ops2 _ _ _ E).
    destruct (run_ops fuel ops2 q1). rewrite <- app_assoc. reflexivity.
Qed.

(** A run of calls that all return never receives, and leaves one signal
    buffered as soon as it contains an [Unlock]. *)
Lemma run_ops_returned fuel ops : ∀ q q' tr,
  wake_bounded q →
  run_ops fuel ops q = (Returned q', tr) →
  wake_bounded q' ∧
  len (wait q') = Nat.min 1 (len (wait q) + unlocks ops) ∧
  List.filter is_recv tr = [].
Proof.
  induction ops as [|o ops IH]; intros q q' tr Hq; cbn [run_ops].
  - intros [= <- <-]. split; [exact Hq|]. destruct Hq as [_ Hle].
    unfold unlocks. cbn -[Nat.min]. split; [lia | reflexivity].
  - destruct (call fuel o q) as [[q0| | |] tr0] eqn:Ec; try discriminate.
    destruct (run_ops fuel ops q0) as [r tr1] eqn:E.
    intros [= -> <-].
    assert (Hq0 : wake_bounded q0).
    { pose proof (call_wake_bounded fuel o q Hq) as Hb.
      rewrite Ec in Hb. exact Hb. }
    destruct (IH _ _ _ Hq0 E) as (Hq' & Hlen & Hrecv).
    split; [exact Hq'|]. rewrite List.filter_app, Hrecv, Hlen.
    destruct Hq as [Hcap Hle]. destruct o; cbn [call] in Ec.
    + apply Lock_Returned_inv in Ec as (_ & -> & ->).
      unfold unlocks. cbn -[Nat.min]. auto.
    + unfold Unlock in Ec. destruct (negb (locked q)); [discriminate|].
      cbn in Ec. destruct (try_send (wait q) tt) as [c|] eqn:Es.
      * injection Ec as <- <-. apply try_send_Some in Es.
        unfold unlocks. cbn -[Nat.min]. split; [lia | reflexivity].
      * injection Ec as <- <-.
        assert (cap (wait q) ≤ len (wait q)).
        { unfold try_send, len in *.
          destruct (Nat.ltb_spec (length (buf (wait q))) (cap (wait q)));
            [discriminate | lia]. }
        unfold unlocks. cbn -[Nat.min]. split; [lia | reflexivity].
Qed.

(** Rounds of [Lock(); Unlock()] from a free lock: every call returns, each
    [Lock] within its first iteration, and the lock is free again. *)
Lemma Unlock_held_returns q :
  locked q = true →
  ∃ q1 sent,
    Unlock q = (Returned q1, [EvLoad true; EvStore false; EvTrySend sent]) ∧
    locked q1 = false.
Proof.
  intros Hq. unfold Unlock. rewrite Hq. cbn.
  destruct (try_send (wait q) tt); eexists _, _; split; reflexivity.
Qed.

Lemma cycles_return n : ∀ q,
  locked q = false → wake_bounded q →
  ∃ q' tr, run_ops 1 (cycles n) q = (Returned q', tr) ∧
           locked q' = false ∧ wake_bounded q'.
Proof.
  induction n as [|n IH]; intros q Hq Hb.
  - cbn. eauto.
  - destruct (Unlock_held_returns (set_locked true q) eq_refl)
      as (q1 & sent & HU & Hq1).
    assert (Hb1 : wake_bounded q1).
    { pose proof (call_wake_bounded 1 OpUnlock (set_locked true q) Hb) as H1.
      cbn [call] in H1. rewrite HU in H1. exact H1. }
    destruct (IH q1 Hq1 Hb1) as (q' & tr & Hrun & Hq' & Hb').
    change (cycles (S n)) with ([OpLock; OpUnlock] ++ cycles n).
    erewrite run_ops_app.
    + rewrite Hrun. eauto.
    + cbn [run_ops call]. rewrite Lock_free by exact Hq. rewrite HU.
      reflexivity.
Qed.

(** C7.  The lock can be used again after a release.  From a fresh lock,
    [Lock(); Unlock(); Lock()] runs to the end with one loop iteration per
    [Lock], no receive and no panic, and ends with the flag set; the same
    holds after any number of [Lock(); Unlock()] rounds. *)
Theorem lock_is_reusable :
  run_ops 1 [OpLock; OpUnlock; OpLock] NewQutex =
    (Returned {| locked := true; wait := {| cap := 1; buf := [tt] |} |},
     [EvLoad false; EvStore true;
      EvLoad true; EvStore false; EvTrySend true;
      EvLoad false; EvStore true]) ∧
  ∀ n, ∃ q tr,
    run_ops 1 (cycles n ++ [OpLock]) NewQutex = (Returned q, tr) ∧
    locked q = true ∧
    List.filter is_recv tr = [].
Proof.
  split; [reflexivity|]. intros n.
  assert (Hnew : wake_bounded NewQutex) by (split; cbn; lia).
  destruct (cycles_return n NewQutex eq_refl Hnew) as (q1 & tr1 & Hrun & Hq1 & Hb1).
  pose proof (run_ops_app 1 _ [OpLock] _ _ _ Hrun) as Happ.
  cbn [run_ops call] in Happ. rewrite Lock_free in Happ by exact Hq1.
  cbn in Happ. eexists _, _. split; [exact Happ|]. split; [reflexivity|].
  eapply run_ops_returned; [exact Hnew | exact Happ].
Qed.

(** ** The machine agrees with the functions

    A goroutine running alone through the statements of a call performs the
    operations, and ends with the lock, that [Lock] and [Unlock] compute. *)

Lemma grun_Lock fuel : ∀ q o tr,
  Lock fuel q = (o, tr) →
  (∀ q0, o ≠ OutOfFuel q0) →
  grun (2 * fuel) LockCheck q = (Lock_exit o, final o, tr).
Proof.
  induction fuel as [|fuel IH]; intros q o tr HL Hfuel.
  - cbn in HL. injection HL as <- <-. now destruct (Hfuel q).
  - replace (2 * S fuel) with (S (S (2 * fuel))) by lia.
    cbn [Lock] in HL. cbn [grun gstep].
    destruct (locked q) eqn:Hq; cbn [negb at_rest] in *.
    + destruct (recv (wait q)) as [[u c]|] eqn:Er.
      * destruct (Lock fuel (set_wait c q)) as [o0 tr0] eqn:E0.
        injection HL as <- <-. cbn [gstep]. rewrite Er. cbn [at_rest].
        rewrite (IH _ _ _ E0 Hfuel). reflexivity.
      * injection HL as <- <-. cbn [gstep]. rewrite Er. reflexivity.
    + injection HL as <- <-. reflexivity.
Qed.

Lemma grun_Unlock q :
  grun 3 UnlockCheck q =
    (Unlock_exit (Unlock q).1, final (Unlock q).1, (Unlock q).2).
Proof.
  unfold Unlock. cbn [grun gstep].
  destruct (locked q); cbn; [|reflexivity].
  destruct (try_send (wait q) tt); reflexivity.
Qed.


Lemma gstep_reaches_LockSet p q q' ev :
  gstep p q = Some (LockSet, q', ev) →
  p = LockCheck ∧ locked q = false ∧ q' = q ∧ ev = [EvLoad false].
Proof.
  destruct p; cbn;
    repeat match goal with
           | |- context [negb ?b] => destruct b eqn:?; cbn
           | |- context [recv ?c] => destruct (recv c) as [[? ?]|]
           | |- context [try_send ?c ?v] => destruct (try_send c v)
           end;
    try discriminate.
  intros [= <- <-]. auto.
Qed.

(** ** Interleavings *)

Section Counting.
Variable f : pc → bool.

Lemma count_insert (l : list pc) : ∀ i p p',
  l !! i = Some p →
  count f (<[i := p']> l) + (if f p then 1 else 0) =
  count f l + (if f p' then 1 else 0).
Proof.
  induction l as [|a l IH]; intros [|i] p p' Hi; simpl in *; try discriminate.
  - injection Hi as ->. clear IH. destruct (f p), (f p'); lia.
  - specialize (IH i p p' Hi). revert IH.
    destruct (f a), (f p), (f p'); lia.
Qed.

Lemma count_replicate n p : f p = false → count f (replicate n p) = 0.
Proof. intros Hp. induction n as [|n IH]; cbn; [|rewrite Hp, IH]; reflexivity. Qed.

Lemma count_none (l : list pc) :
  (∀ j p, l !! j = Some p → f p = false) → count f l = 0.
Proof.
  induction l as [|a l IH]; intros H; cbn; [reflexivity|].
  rewrite (H 0 a eq_refl), IH; [reflexivity|].
  intros j p Hj. exact (H (S j) p Hj).
Qed.

End Counting.

Lemma gstep_wake_bounded p q p' q' ev :
  wake_bounded q → gstep p q = Some (p', q', ev) → wake_bounded q'.
Proof.
  intros [Hcap Hlen]. unfold wake_bounded.
  destruct p; cbn;
    repeat match goal with
           | |- context [negb ?b] => destruct b; cbn
           end;
    try (intros [= <- <- <-]; cbn; lia); try discriminate.
  - destruct (recv (wait q)) as [[u c]|] eqn:E; [|discriminate].
    intros [= <- <- <-]. apply recv_Some in E as [Hc Hb].
    unfold len in *. rewrite Hb in Hlen. cbn in *. lia.
  - destruct (try_send (wait q) tt) as [c|] eqn:E;
      intros [= <- <- <-]; cbn; [|lia].
    apply try_send_Some in E. lia.
Qed.

Lemma exec1_wake_bounded i w :
  wake_bounded (lock w) → wake_bounded (lock (exec1 i w)).
Proof.
  intros Hb. unfold exec1, step.
  destruct (procs w !! i) as [p|]; cbn; [|exact Hb].
  destruct (gstep p (lock w)) as [[[p' q'] ev]|] eqn:E; cbn; [|exact Hb].
  exact (gstep_wake_bounded _ _ _ _ _ Hb E).
Qed.

Lemma exec_wake_bounded sched : ∀ w,
  wake_bounded (lock w) → wake_bounded (lock (exec sched w)).
Proof.
  induction sched as [|i sched IH]; intros w Hb; cbn; [exact Hb|].
  apply IH, exec1_wake_bounded, Hb.
Qed.

(** C3.  The wake channel never holds more than one signal.  This holds of a
    fresh lock, is kept by every call of [Lock] and [Unlock] whatever its
    outcome, and so holds after every interleaving of any number of
    goroutines.  Releases whose signal nobody receives do not pile up: a run
    of calls that all return leaves exactly one signal buffered once it
    contains a release, and so does every positive number of
    [Lock(); Unlock()] rounds. *)
Theorem wake_channel_holds_at_most_one_signal :
  wake_bounded NewQutex ∧
  (∀ fuel o q, wake_bounded q → wake_bounded (final (call fuel o q).1)) ∧
  (∀ n sched, wake_bounded (lock (exec sched (init n)))) ∧
  (∀ fuel ops q tr,
     run_ops fuel ops NewQutex = (Returned q, tr) →
     len (wait q) = Nat.min 1 (unlocks ops) ∧ List.filter is_recv tr = []) ∧
  (∀ n, ∃ tr,
     run_ops 1 (cycles (S n)) NewQutex =
       (Returned {| locked := false; wait := {| cap := 1; buf := [tt] |} |}, tr)).
Proof.
  assert (Hnew : wake_bounded NewQutex) by (split; cbn; lia).
  split; [exact Hnew|]. split; [|split; [|split]].
  - intros fuel o q. apply call_wake_bounded.
  - intros n sched. apply exec_wake_bounded. exact Hnew.
  - intros fuel ops q tr Hrun.
    destruct (run_ops_returned _ _ _ _ _ Hnew Hrun) as (_ & Hlen & Hrecv).
    split; [exact Hlen | exact Hrecv].
  - intros n.
    destruct (cycles_return (S n) NewQutex eq_refl Hnew)
      as ([b [c l]] & tr & Hrun & Hq & Hb).
    destruct (run_ops_returned _ _ _ _ _ Hnew Hrun) as (_ & Hlen & _).
    destruct Hb as [Hcap _]. unfold len, unlocks in Hlen.
    cbn -[Nat.min] in *. subst b c.
    destruct l as [|[] [|? ?]]; cbn in Hlen; try lia.
    exists tr. exact Hrun.
Qed.

(** ** Mutual exclusion *)

Lemma flag_tracks_holder_init n : flag_tracks_holder (init n).
Proof.
  unfold flag_tracks_holder, init. cbn.
  rewrite !count_replicate by reflexivity. split; [lia|]. split; auto.
Qed.

Lemma step_flag_tracks_holder i w w' :
  (∀ j, procs w !! j = Some LockSet → j = i) →
  flag_tracks_holder w →
  step i w = Some w' →
  flag_tracks_holder w'.
Proof.
  intros Hatomic (Hone & Hclear & Hset). unfold step.
  destruct (procs w !! i) as [p|] eqn:Hi; [|discriminate].
  destruct (gstep p (lock w)) as [[[p' q'] ev]|] eqn:Hg; [|discriminate].
  intros [= <-]. unfold flag_tracks_holder. cbn [lock procs].
  pose proof (count_insert holder _ _ _ p' Hi) as Hh.
  pose proof (count_insert setting _ _ _ p' Hi) as Hs.
  revert Hh Hs.
  generalize (count holder (<[i := p']> (procs w))).
  generalize (count setting (<[i := p']> (procs w))).
  intros s' h' Hh Hs.
  destruct p; cbn in Hg.
  - (* Idle *)
    injection Hg as <- <- _. cbn in *. split; [lia|]. split; intros; [|]; intuition lia.
  - (* LockCheck *)
    destruct (locked (lock w)) eqn:Hl; cbn in Hg; injection Hg as <- <- _; cbn in *.
    + rewrite Hl. split; [lia|]. split; [discriminate|]. intros _. intuition lia.
    + rewrite Hl.
      assert (Hnone : count setting (procs w) = 0).
      { apply count_none. intros j p Hj. destruct p; try reflexivity.
        specialize (Hatomic j Hj). subst j. congruence. }
      specialize (Hclear eq_refl).
      split; [lia|]. split; [intros _; lia | discriminate].
  - (* LockSet *)
    injection Hg as <- <- _. cbn in *.
    assert (Hl : locked (lock w) = false).
    { destruct (locked (lock w)); [|reflexivity].
      specialize (Hset eq_refl). lia. }
    specialize (Hclear Hl).
    split; [lia|]. split; [discriminate | intros _; lia].
  - (* LockRecv *)
    destruct (recv (wait (lock w))) as [[u c]|]; [|discriminate].
    injection Hg as <- <- _. cbn in *. split; [lia|]. split; intros; intuition lia.
  - (* Crit *)
    injection Hg as <- <- _. cbn in *. split; [lia|]. split; intros; intuition lia.
  - (* UnlockCheck *)
    destruct (locked (lock w)) eqn:Hl; cbn in Hg; injection Hg as <- <- _; cbn in *.
    + rewrite Hl. split; [lia|]. split; [discriminate|]. intros _. intuition lia.
    + rewrite Hl. specialize (Hclear eq_refl).
      split; [lia|]. split; [intros _; lia | discriminate].
  - (* UnlockClear *)
    injection Hg as <- <- _. cbn in *.
    split; [lia|]. split; [intros _; lia | discriminate].
  - (* UnlockSend *)
    destruct (try_send (wait (lock w)) tt) as [c|];
      injection Hg as <- <- _; cbn in *;
      (split; [lia|]; split; intros; intuition lia).
  - (* Dead *)
    discriminate.
Qed.

Lemma exec1_flag_tracks_holder i w :
  (∀ j, procs w !! j = Some LockSet → j = i) →
  flag_tracks_holder w → flag_tracks_holder (exec1 i w).
Proof.
  intros Hatomic Hw. unfold exec1.
  destruct (step i w) as [w'|] eqn:Hs; cbn; [|exact Hw].
  exact (step_flag_tracks_holder _ _ _ Hatomic Hw Hs).
Qed.

Lemma exec_flag_tracks_holder sched : ∀ w,
  atomic_test_and_set sched w →
  flag_tracks_holder w → flag_tracks_holder (exec sched w).
Proof.
  induction sched as [|i sched IH]; intros w Hat Hw; cbn; [exact Hw|].
  destruct Hat as [Hi Hrest].
  apply IH; [exact Hrest|]. apply exec1_flag_tracks_holder; assumption.
Qed.

Lemma atomic_test_and_set_take sched : ∀ k w,
  atomic_test_and_set sched w → atomic_test_and_set (take k sched) w.
Proof.
  induction sched as [|i sched IH]; intros [|k] w Hat; cbn; auto.
  destruct Hat as [Hi Hrest]. split; [exact Hi|]. apply IH, Hrest.
Qed.

(** C9, as the code has it.  In every interleaving that does not separate a
    goroutine's test of the flag from its store of true (lines 17-18 run as
    one step), at every instant at most one goroutine is between the return
    of its [Lock] and the clearing of the flag by its [Unlock]. *)
Theorem mutual_exclusion_when_test_and_set_atomic n sched :
  atomic_test_and_set sched (init n) →
  ∀ k, mutual_exclusion (exec (take k sched) (init n)).
Proof.
  intros Hat k.
  pose proof (exec_flag_tracks_holder _ _
                (atomic_test_and_set_take sched k _ Hat)
                (flag_tracks_holder_init n)) as (Hone & _).
  unfold mutual_exclusion, holders. lia.
Qed.

(** Two goroutines taking turns at the lock, each test followed at once by
    its store. *)
Lemma mutual_exclusion_when_test_and_set_atomic_witness :
  procs (exec [0; 1; 0; 0; 1; 1; 0; 0; 0; 0; 1; 1; 1] (init 2)) = [Idle; Crit] ∧
  mutual_exclusion (exec [0; 1; 0; 0; 1; 1; 0; 0; 0; 0; 1; 1; 1] (init 2)).
Proof.
  split; [reflexivity|].
  apply (mutual_exclusion_when_test_and_set_atomic 2
           [0; 1; 0; 0; 1; 1; 0; 0; 0; 0; 1; 1; 1] ltac:(
             cbn; repeat split;
             intros [|[|[|j]]] Hj; cbn in Hj; congruence) 13).
Defined.

(** C9, as stated, fails.  Two goroutines both read the flag as clear before
    either sets it; both then set it and return from [Lock], and both are in
    their critical sections. *)
Lemma mutual_exclusion_broken_by_check_then_set_race :
  procs (exec [0; 1; 0; 1; 0; 1] (init 2)) = [Crit; Crit] ∧
  locked (lock (exec [0; 1; 0; 1; 0; 1] (init 2))) = true ∧
  ¬ mutual_exclusion (exec [0; 1; 0; 1; 0; 1] (init 2)).
Proof.
  split; [reflexivity|]. split; [reflexivity|].
  unfold mutual_exclusion, holders. cbn. lia.
Qed.

(** After the race both goroutines release.  Both pass the test of line 26,
    both clear the flag, and of their two select-sends the first fills the
    wake channel and the second takes the [default] arm: one signal is
    buffered, not two. *)
Example racing_releases_leave_one_signal :
  exec ([0; 1; 0; 1; 0; 1] ++ [0; 1; 0; 1; 0; 1; 0; 1]) (init 2) =
    {| lock := {| locked := false; wait := {| cap := 1; buf := [tt] |} |};
       procs := [Idle; Idle] |}.
Proof. reflexivity. Qed.

(** * Further properties of [Lock] and [Unlock] *)

(** ** One goroutine *)

Lemma call_Returned_iff fuel o q :
  (∃ q' tr, call (S fuel) o q = (Returned q', tr)) ↔
  locked q = match o with OpLock => false | OpUnlock => true end.
Proof.
  destruct o; cbn [call]; split.
  - intros (q' & tr & H). apply Lock_Returned_inv in H. tauto.
  - intros Hq. eexists _, _. apply Lock_free, Hq.
  - intros (q' & tr & H). destruct (locked q) eqn:Hq; [reflexivity|].
    rewrite Unlock_unheld in H by exact Hq. discriminate.
  - intros Hq. destruct (Unlock_held_returns q Hq) as (q1 & sent & H & _).
    eauto.
Qed.

Lemma call_Returned_flag fuel o q q' tr :
  call fuel o q = (Returned q', tr) →
  locked q' = match o with OpLock => true | OpUnlock => false end.
Proof.
  destruct o; cbn [call].
  - intros H. apply Lock_Returned_inv in H as (_ & -> & _). reflexivity.
  - unfold Unlock. destruct (negb (locked q)); [discriminate|]. cbn.
    destruct (try_send (wait q) tt); intros [= <- _]; reflexivity.
Qed.

Lemma run_ops_cons_Returned fuel o rest q q' tr :
  run_ops fuel (o :: rest) q = (Returned q', tr) →
  ∃ q1 tr1 tr2,
    call fuel o q = (Returned q1, tr1) ∧
    run_ops fuel rest q1 = (Returned q', tr2) ∧ tr = tr1 ++ tr2.
Proof.
  cbn [run_ops].
  destruct (call fuel o q) as [[q1| | |] tr1]; try discriminate.
  destruct (run_ops fuel rest q1) as [r tr2] eqn:E.
  intros [= -> <-]. exists q1, tr1, tr2. auto.
Qed.

Lemma flag_after_cons held o rest :
  flag_after held (o :: rest) =
  flag_after (match o with OpLock => true | OpUnlock => false end) rest.
Proof.
  unfold flag_after. destruct rest as [|o' rest]; [destruct o; reflexivity|].
  rewrite last_cons.
  destruct (last (o' :: rest)) as [x|] eqn:E; [reflexivity|].
  apply last_None in E. discriminate.
Qed.

(** X6.  The calls of a lone goroutine all return exactly when they
    alternate, [Lock] on a clear flag and [Unlock] on a set one: a second
    [Lock] without an [Unlock] in between, or an [Unlock] without a [Lock]
    before it, ends the run (parked, or by the panic).  When they all
    return, the flag is the one the last call wrote. *)
Theorem run_ops_returns_iff_alternates fuel ops : ∀ q,
  ((∃ q' tr, run_ops (S fuel) ops q = (Returned q', tr)) ↔
   alternates (locked q) ops = true) ∧
  (∀ q' tr, run_ops (S fuel) ops q = (Returned q', tr) →
            locked q' = flag_after (locked q) ops).
Proof.
  induction ops as [|o ops IH]; intros q.
  - split; [split; [reflexivity | cbn; eauto]|].
    cbn. intros q' tr [= <- _]. reflexivity.
  - split; [split|].
    + intros (q' & tr & H).
      apply run_ops_cons_Returned in H as (q1 & tr1 & tr2 & Hc & Hr & _).
      pose proof (call_Returned_flag _ _ _ _ _ Hc) as Hf.
      assert (Ho : locked q = match o with OpLock => false | OpUnlock => true end)
        by (apply (call_Returned_iff fuel); eauto).
      assert (Hrest : alternates (locked q1) ops = true)
        by (apply IH; eauto).
      destruct o; cbn [alternates]; rewrite Ho; rewrite Hf in Hrest;
        exact Hrest.
    + intros Halt.
      assert (Ho : locked q = match o with OpLock => false | OpUnlock => true end).
      { destruct o; cbn [alternates] in Halt; destruct (locked q);
          cbn in Halt; congruence. }
      apply (call_Returned_iff fuel) in Ho as (q1 & tr1 & Hc).
      pose proof (call_Returned_flag _ _ _ _ _ Hc) as Hf.
      assert (Hrest : alternates (locked q1) ops = true).
      { rewrite Hf. destruct o; cbn [alternates] in Halt;
          apply andb_true_iff in Halt as [_ Hrest]; exact Hrest. }
      apply IH in Hrest as (q' & tr & Hr).
      cbn [run_ops]. rewrite Hc, Hr. eauto.
    + intros q' tr H.
      apply run_ops_cons_Returned in H as (q1 & tr1 & tr2 & Hc & Hr & _).
      rewrite flag_after_cons, <- (call_Returned_flag _ _ _ _ _ Hc).
      exact (proj2 (IH q1) _ _ Hr).
Qed.

(** X7.  [Lock] called alone on a held lock uses up the wake-ups: it
    receives every signal that is buffered, re-reading the flag after each,
    and is left parked on an empty channel; it writes nothing. *)
Theorem Lock_held_drains_wake_channel fuel q :
  locked q = true →
  len (wait q) < fuel →
  ∃ tr,
    Lock fuel q =
      (Blocked {| locked := true;
                  wait := {| cap := cap (wait q); buf := [] |} |}, tr) ∧
    length (List.filter is_recv tr) = len (wait q) ∧
    List.filter is_store tr = [] ∧
    length tr = 2 * len (wait q) + 1.
Proof.
  intros Hq Hfuel. exists (spin (len (wait q))).
  rewrite Lock_held by assumption. unfold set_wait. rewrite Hq.
  split; [reflexivity|]. generalize (len (wait q)) as k. clear.
  induction k as [|k (Hr & Hs & Hl)]; cbn [spin]; [cbn; auto|].
  cbn. rewrite Hr, Hs, Hl. split; [|split]; [reflexivity..|lia].
Qed.

Lemma Lock_held_drains_wake_channel_witness :
  ∃ tr,
    Lock 2 {| locked := true; wait := {| cap := 1; buf := [tt] |} |} =
      (Blocked {| locked := true; wait := {| cap := 1; buf := [] |} |}, tr) ∧
    length (List.filter is_recv tr) = 1 ∧
    List.filter is_store tr = [] ∧
    length tr = 3.
Proof.
  apply (Lock_held_drains_wake_channel 2
           {| locked := true; wait := {| cap := 1; buf := [tt] |} |});
    [reflexivity | cbn; lia].
Defined.

(** ** Any number of goroutines *)

Lemma count_pos (f : pc → bool) (l : list pc) : ∀ i p,
  l !! i = Some p → f p = true → 1 ≤ count f l.
Proof.
  induction l as [|a l IH]; intros [|i] p Hi Hp; simpl in *; try discriminate.
  - injection Hi as ->. rewrite Hp. lia.
  - specialize (IH i p Hi Hp). destruct (f a); lia.
Qed.

Lemma step_flag_has_holder i w w' :
  flag_has_holder w → step i w = Some w' → flag_has_holder w'.
Proof.
  unfold flag_has_holder, step. intros Hw.
  destruct (procs w !! i) as [p|] eqn:Hi; [|discriminate].
  destruct (gstep p (lock w)) as [[[p' q'] ev]|] eqn:Hg; [|discriminate].
  intros [= <-]. cbn [lock procs].
  pose proof (count_insert holder _ _ _ p' Hi) as Hh. revert Hh.
  generalize (count holder (<[i := p']> (procs w))). intros h' Hh.
  destruct p; cbn in Hg.
  - injection Hg as <- <- _. cbn in *. intros Hl. specialize (Hw Hl). lia.
  - destruct (locked (lock w)) eqn:Hl; cbn in Hg; injection Hg as <- <- _;
      cbn in *; rewrite Hl; intros Hl'; [|discriminate].
    specialize (Hw eq_refl). lia.
  - injection Hg as <- <- _. cbn in *. intros _. lia.
  - destruct (recv (wait (lock w))) as [[u c]|]; [|discriminate].
    injection Hg as <- <- _. cbn in *. intros Hl. specialize (Hw Hl). lia.
  - injection Hg as <- <- _. cbn in *. intros Hl. specialize (Hw Hl). lia.
  - destruct (locked (lock w)) eqn:Hl; cbn in Hg; injection Hg as <- <- _;
      cbn in *; rewrite Hl; intros Hl'; [|discriminate].
    specialize (Hw eq_refl). lia.
  - injection Hg as <- <- _. cbn in *. discriminate.
  - destruct (try_send (wait (lock w)) tt) as [c|];
      injection Hg as <- <- _; cbn in *; intros Hl; specialize (Hw Hl); lia.
  - discriminate.
Qed.

Lemma exec_flag_has_holder sched : ∀ w,
  flag_has_holder w → flag_has_holder (exec sched w).
Proof.
  induction sched as [|i sched IH]; intros w Hw; cbn; [exact Hw|].
  apply IH. unfold exec1. destruct (step i w) as [w'|] eqn:Hs; cbn; [|exact Hw].
  exact (step_flag_has_holder _ _ _ Hw Hs).
Qed.

Lemma flag_has_holder_init n : flag_has_holder (init n).
Proof. unfold flag_has_holder, init. cbn. discriminate. Qed.

Lemma step_wake_pending i w w' :
  wake_bounded (lock w) → wake_pending w → step i w = Some w' →
  wake_pending w'.
Proof.
  unfold wake_pending, step. intros [Hcap Hlen] Hw.
  destruct (procs w !! i) as [p|] eqn:Hi; [|discriminate].
  destruct (gstep p (lock w)) as [[[p' q'] ev]|] eqn:Hg; [|discriminate].
  intros [= <-]. cbn [lock procs].
  pose proof (count_insert waiting _ _ _ p' Hi) as Hwt.
  pose proof (count_insert in_flight _ _ _ p' Hi) as Hfl.
  revert Hwt Hfl.
  generalize (count waiting (<[i := p']> (procs w))).
  generalize (count in_flight (<[i := p']> (procs w))).
  intros f' t' Hwt Hfl.
  assert (Hpos : in_flight p = true → 1 ≤ count in_flight (procs w))
    by exact (count_pos in_flight _ _ _ Hi).
  destruct p; cbn in Hg.
  - injection Hg as <- <- _. cbn in *. right; right; left. lia.
  - destruct (locked (lock w)) eqn:Hl; cbn in Hg; injection Hg as <- <- _;
      cbn in *.
    + right; right; right. exact Hl.
    + right; right; left. specialize (Hpos eq_refl). lia.
  - injection Hg as <- <- _. cbn. right; right; right. reflexivity.
  - destruct (recv (wait (lock w))) as [[u c]|]; [|discriminate].
    injection Hg as <- <- _. cbn in *. right; right; left. lia.
  - injection Hg as <- <- _. cbn in *.
    replace t' with (count waiting (procs w)) by lia.
    replace f' with (count in_flight (procs w)) by lia. exact Hw.
  - destruct (locked (lock w)) eqn:Hl; cbn in Hg; injection Hg as <- <- _;
      cbn in *.
    + right; right; left. lia.
    + replace t' with (count waiting (procs w)) by lia.
      replace f' with (count in_flight (procs w)) by lia.
      rewrite Hl. exact Hw.
  - injection Hg as <- <- _. cbn in *. right; right; left.
    specialize (Hpos eq_refl). lia.
  - destruct (try_send (wait (lock w)) tt) as [c|] eqn:Es;
      injection Hg as <- <- _; cbn in *; right; left.
    + apply try_send_Some in Es. lia.
    + unfold try_send, len in *.
      destruct (Nat.ltb_spec (length (buf (wait (lock w)))) (cap (wait (lock w))));
        [discriminate | lia].
  - discriminate.
Qed.

Lemma exec_wake_pending sched : ∀ w,
  wake_bounded (lock w) → wake_pending w → wake_pending (exec sched w).
Proof.
  induction sched as [|i sched IH]; intros w Hb Hw; cbn; [exact Hw|].
  apply IH; [apply exec1_wake_bounded, Hb|].
  unfold exec1. destruct (step i w) as [w'|] eqn:Hs; cbn; [|exact Hw].
  exact (step_wake_pending _ _ _ Hb Hw Hs).
Qed.

Lemma wake_pending_init n : wake_pending (init n).
Proof.
  left. unfold init. cbn. apply count_replicate. reflexivity.
Qed.

(** X1.  However the goroutines interleave, the flag is never left set with
    nobody to clear it: when [locked] is true, some goroutine is between the
    return of its [Lock] and the store of line 29 in its [Unlock]. *)
Theorem set_flag_has_a_holder n sched :
  locked (lock (exec sched (init n))) = true →
  1 ≤ holders (exec sched (init n)).
Proof.
  apply (exec_flag_has_holder sched (init n)), flag_has_holder_init.
Qed.

Lemma set_flag_has_a_holder_witness :
  1 ≤ holders (exec [0; 1; 0; 0; 1] (init 2)).
Proof.
  apply (set_flag_has_a_holder 2 [0; 1; 0; 0; 1]). reflexivity.
Defined.

(** X5.  No wake-up is lost.  In any world the goroutines can reach, if
    nobody holds the lock or is inside a call except goroutines parked in
    [Lock], then the flag is clear and the wake channel holds a signal: a
    parked goroutine can receive it and go back to testing the flag. *)
Theorem parked_goroutine_is_woken n sched i :
  quiescent (exec sched (init n)) →
  procs (exec sched (init n)) !! i = Some LockRecv →
  locked (lock (exec sched (init n))) = false ∧
  len (wait (lock (exec sched (init n)))) = 1 ∧
  ∃ w', step i (exec sched (init n)) = Some w' ∧
        procs w' !! i = Some LockCheck ∧
        locked (lock w') = false.
Proof.
  assert (Hnew : wake_bounded NewQutex) by (split; cbn; lia).
  pose proof (exec_wake_bounded sched (init n) Hnew) as [Hcap Hlen].
  pose proof (exec_wake_pending sched (init n) Hnew (wake_pending_init n)) as Hp.
  pose proof (exec_flag_has_holder sched (init n) (flag_has_holder_init n)) as Hh.
  revert Hcap Hlen Hp Hh. generalize (exec sched (init n)). intros w.
  unfold wake_pending, flag_has_holder. intros Hcap Hlen Hp Hh Hq Hi.
  assert (Hnoh : count holder (procs w) = 0).
  { apply count_none. intros j p Hj.
    destruct (Hq j p Hj) as [-> | [-> | ->]]; reflexivity. }
  assert (Hnof : count in_flight (procs w) = 0).
  { apply count_none. intros j p Hj.
    destruct (Hq j p Hj) as [-> | [-> | ->]]; reflexivity. }
  assert (Hwt : 1 ≤ count waiting (procs w))
    by exact (count_pos waiting _ _ _ Hi eq_refl).
  assert (Hl : locked (lock w) = false).
  { destruct (locked (lock w)); [|reflexivity]. specialize (Hh eq_refl). lia. }
  assert (Hone : len (wait (lock w)) = 1).
  { destruct Hp as [Hp | [Hp | [Hp | Hp]]]; [lia | lia | lia | congruence]. }
  split; [exact Hl|]. split; [exact Hone|].
  unfold step. rewrite Hi. cbn [gstep]. unfold recv, len in *.
  destruct (buf (wait (lock w))) as [|u rest]; [discriminate|].
  eexists. split; [reflexivity|]. cbn.
  split; [|exact Hl].
  apply list_lookup_insert_eq. eapply lookup_lt_Some, Hi.
Qed.

(** Goroutine 0 takes the lock, goroutine 1 parks, goroutine 0 releases. *)
Lemma parked_goroutine_is_woken_witness :
  locked (lock (exec [0; 0; 0; 1; 1; 0; 0; 0; 0] (init 2))) = false ∧
  len (wait (lock (exec [0; 0; 0; 1; 1; 0; 0; 0; 0] (init 2)))) = 1 ∧
  ∃ w', step 1 (exec [0; 0; 0; 1; 1; 0; 0; 0; 0] (init 2)) = Some w' ∧
        procs w' !! 1 = Some LockCheck ∧
        locked (lock w') = false.
Proof.
  apply (parked_goroutine_is_woken 2 [0; 0; 0; 1; 1; 0; 0; 0; 0] 1).
  - intros [|[|j]] p Hj; cbn in Hj; try discriminate;
      injection Hj as <-; auto.
  - reflexivity.
Defined.

(** ** Interleavings with an undivided test-and-set *)

Lemma step_no_panic i w w' :
  flag_tracks_holder w →
  count dead (procs w) = 0 →
  step i w = Some w' →
  count dead (procs w') = 0.
Proof.
  intros (_ & Hclear & _) Hnone. unfold step.
  destruct (procs w !! i) as [p|] eqn:Hi; [|discriminate].
  destruct (gstep p (lock w)) as [[[p' q'] ev]|] eqn:Hg; [|discriminate].
  intros [= <-]. cbn [procs].
  pose proof (count_insert dead _ _ _ p' Hi) as Hd.
  assert (Hp' : dead p' = false).
  { destruct p; cbn in Hg;
      repeat match type of Hg with
             | context [negb ?b] => destruct b eqn:Hl; cbn in Hg
             | context [recv ?c] => destruct (recv c) as [[? ?]|]
             | context [try_send ?c ?v] => destruct (try_send c v)
             end;
      try discriminate; injection Hg as <- _ _; try reflexivity.
    exfalso. specialize (Hclear eq_refl).
    pose proof (count_pos holder _ _ _ Hi eq_refl). lia. }
  rewrite Hp' in Hd. destruct (dead p); lia.
Qed.

Lemma exec_no_panic sched : ∀ w,
  atomic_test_and_set sched w →
  flag_tracks_holder w →
  count dead (procs w) = 0 →
  count dead (procs (exec sched w)) = 0.
Proof.
  induction sched as [|i sched IH]; intros w Hat Hw Hnone; cbn; [exact Hnone|].
  destruct Hat as [Hi Hrest].
  apply IH; [exact Hrest | apply exec1_flag_tracks_holder; assumption |].
  unfold exec1. destruct (step i w) as [w'|] eqn:Hs; cbn; [|exact Hnone].
  exact (step_no_panic _ _ _ Hw Hnone Hs).
Qed.

(** X2.  When no interleaving separates a goroutine's test of the flag from
    its store, the flag tells whether the lock is held: it is set exactly
    when one goroutine is between the return of its [Lock] and the clearing
    store of its [Unlock], and clear exactly when none is. *)
Theorem flag_set_iff_one_holder_when_atomic n sched :
  atomic_test_and_set sched (init n) →
  (locked (lock (exec sched (init n))) = true ↔
   holders (exec sched (init n)) = 1) ∧
  (locked (lock (exec sched (init n))) = false ↔
   holders (exec sched (init n)) = 0).
Proof.
  intros Hat.
  pose proof (exec_flag_tracks_holder _ _ Hat (flag_tracks_holder_init n))
    as (Hone & Hclear & _).
  pose proof (exec_flag_has_holder sched _ (flag_has_holder_init n)) as Hh.
  unfold flag_has_holder, holders in *.
  destruct (locked (lock (exec sched (init n)))).
  - specialize (Hh eq_refl).
    split; split; intros; try reflexivity; try discriminate; lia.
  - specialize (Hclear eq_refl).
    split; split; intros; try reflexivity; try discriminate; lia.
Qed.

Lemma flag_set_iff_one_holder_when_atomic_witness :
  (locked (lock (exec [0; 0; 0; 1; 1] (init 2))) = true ↔
   holders (exec [0; 0; 0; 1; 1] (init 2)) = 1) ∧
  (locked (lock (exec [0; 0; 0; 1; 1] (init 2))) = false ↔
   holders (exec [0; 0; 0; 1; 1] (init 2)) = 0).
Proof.
  apply (flag_set_iff_one_holder_when_atomic 2 [0; 0; 0; 1; 1]).
  cbn. repeat split; intros [|[|[|j]]] Hj; cbn in Hj; congruence.
Defined.

(** X3.  When no interleaving separates a goroutine's test of the flag from
    its store, goroutines that call [Unlock] only after their own [Lock]
    returned never run into the panic of line 27. *)
Theorem no_panic_when_test_and_set_atomic n sched :
  atomic_test_and_set sched (init n) →
  count dead (procs (exec sched (init n))) = 0.
Proof.
  intros Hat.
  apply exec_no_panic; [exact Hat | apply flag_tracks_holder_init |].
  unfold init. cbn. apply count_replicate. reflexivity.
Qed.

Lemma no_panic_when_test_and_set_atomic_witness :
  count dead (procs (exec [0; 0; 0; 1; 1; 0; 0; 0; 0; 1; 1; 1; 1; 1]
                       (init 2))) = 0.
Proof.
  apply (no_panic_when_test_and_set_atomic 2
           [0; 0; 0; 1; 1; 0; 0; 0; 0; 1; 1; 1; 1; 1]).
  cbn. repeat split; intros [|[|[|j]]] Hj; cbn in Hj; congruence.
Defined.

(** X4.  With the test and the store interleaved freely the panic is
    reachable by a goroutine that did acquire the lock: two goroutines both
    pass the test of line 17 and return from [Lock]; the first runs its
    [Unlock] to the end; the second then finds the flag clear at line 26. *)
Theorem Unlock_can_panic_after_own_Lock_returned :
  ∃ sched i,
    procs (exec sched (init 2)) !! i = Some Crit ∧
    procs (exec (sched ++ [i; i]) (init 2)) !! i = Some Dead ∧
    ¬ atomic_test_and_set sched (init 2).
Proof.
  exists [0; 1; 0; 1; 0; 1; 0; 0; 0; 0], 1.
  split; [reflexivity|]. split; [reflexivity|].
  cbn. intros (_ & _ & _ & H & _). specialize (H 0 eq_refl). discriminate.
Qed.

(** ** Wake-ups and progress *)

Lemma count_pos_lookup (f : pc → bool) (l : list pc) :
  1 ≤ count f l → ∃ j p, l !! j = Some p ∧ f p = true.
Proof.
  induction l as [|a l IH]; simpl; [lia|].
  destruct (f a) eqn:Ha.
  - intros _. exists 0, a. auto.
  - intros Hc. destruct IH as (j & p & Hj & Hp); [lia|].
    exists (S j), p. auto.
Qed.

(** Every statement but the receive of line 21 can always run. *)
Lemma gstep_enabled p q :
  p ≠ Dead → (p = LockRecv → buf (wait q) ≠ []) →
  ∃ r, gstep p q = Some r.
Proof.
  intros Hd Hr. destruct p; cbn; eauto.
  - destruct (negb (locked q)); eauto.
  - unfold recv. destruct (buf (wait q)); [now destruct Hr | eauto].
  - destruct (negb (locked q)); eauto.
  - destruct (try_send (wait q) tt); eauto.
  - now destruct Hd.
Qed.

Lemma step_enabled i w p :
  procs w !! i = Some p →
  p ≠ Dead → (p = LockRecv → buf (wait (lock w)) ≠ []) →
  ∃ w', step i w = Some w'.
Proof.
  intros Hi Hd Hr. unfold step. rewrite Hi.
  destruct (gstep_enabled p (lock w) Hd Hr) as ([[p' q'] ev] & ->). eauto.
Qed.

(** X8.  One signal wakes one goroutine.  When a parked goroutine receives
    the buffered signal, every other goroutine parked in [Lock] stays
    parked: it cannot move until another [Unlock] sends. *)
Theorem one_signal_wakes_one_goroutine n sched i j w' :
  step i (exec sched (init n)) = Some w' →
  procs (exec sched (init n)) !! i = Some LockRecv →
  procs (exec sched (init n)) !! j = Some LockRecv →
  i ≠ j →
  procs w' !! i = Some LockCheck ∧
  procs w' !! j = Some LockRecv ∧
  len (wait (lock w')) = 0 ∧
  step j w' = None.
Proof.
  assert (Hnew : wake_bounded NewQutex) by (split; cbn; lia).
  pose proof (exec_wake_bounded sched (init n) Hnew) as [_ Hlen].
  revert Hlen. generalize (exec sched (init n)). intros w Hlen.
  unfold step at 1. intros Hs Hi Hj Hne. rewrite Hi in Hs. cbn [gstep] in Hs.
  unfold recv, len in *.
  destruct (buf (wait (lock w))) as [|u rest] eqn:Hb; [discriminate|].
  injection Hs as <-. cbn [procs lock].
  assert (Hrest : rest = []) by (destruct rest; [reflexivity | cbn in Hlen; lia]).
  subst rest.
  assert (Hj' : <[i := LockCheck]> (procs w) !! j = Some LockRecv)
    by (rewrite list_lookup_insert_ne by exact Hne; exact Hj).
  split; [apply list_lookup_insert_eq; eapply lookup_lt_Some, Hi|].
  split; [exact Hj'|]. split; [reflexivity|].
  unfold step. cbn [procs lock]. rewrite Hj'. reflexivity.
Qed.

(** Goroutine 0 takes the lock, goroutines 1 and 2 park, goroutine 0
    releases, goroutine 1 receives the signal. *)
Lemma one_signal_wakes_one_goroutine_witness :
  ∃ w',
    procs w' !! 1 = Some LockCheck ∧
    procs w' !! 2 = Some LockRecv ∧
    len (wait (lock w')) = 0 ∧
    step 2 w' = None.
Proof.
  eexists.
  apply (one_signal_wakes_one_goroutine 3
           [0; 0; 0; 1; 1; 2; 2; 0; 0; 0; 0] 1 2);
    [reflexivity | reflexivity | reflexivity | lia].
Defined.

(** X9.  The lock does not deadlock.  In any world the goroutines can
    reach, as long as some goroutine has not panicked some goroutine can
    run its next statement: goroutines are never all parked on an empty
    wake channel. *)
Theorem some_goroutine_can_run n sched i p :
  procs (exec sched (init n)) !! i = Some p →
  p ≠ Dead →
  ∃ j w', step j (exec sched (init n)) = Some w'.
Proof.
  assert (Hnew : wake_bounded NewQutex) by (split; cbn; lia).
  pose proof (exec_wake_pending sched (init n) Hnew (wake_pending_init n)) as Hp.
  pose proof (exec_flag_has_holder sched (init n) (flag_has_holder_init n)) as Hh.
  revert Hp Hh. generalize (exec sched (init n)). intros w.
  unfold wake_pending, flag_has_holder. intros Hp Hh Hi Hd.
  destruct (buf (wait (lock w))) as [|u rest] eqn:Hb.
  - destruct (waiting p) eqn:Hw.
    + assert (Hwt : 1 ≤ count waiting (procs w))
        by exact (count_pos waiting _ _ _ Hi Hw).
      assert (Hsome : 1 ≤ count in_flight (procs w) ∨
                      1 ≤ count holder (procs w)).
      { destruct Hp as [Hp | [Hp | [Hp | Hp]]]; [lia | | auto | auto].
        unfold len in Hp. rewrite Hb in Hp. cbn in Hp. lia. }
      destruct Hsome as [Hc | Hc];
        apply count_pos_lookup in Hc as (j & pj & Hj & Hpj);
        exists j; apply (step_enabled j w pj Hj);
        try (intros ->; discriminate).
    + exists i. apply (step_enabled i w p Hi Hd). intros ->. discriminate.
  - exists i. apply (step_enabled i w p Hi Hd). intros _. rewrite Hb.
    discriminate.
Qed.

(** Goroutine 1 is parked on the empty channel while goroutine 0 holds the
    lock; goroutine 0 can run. *)
Lemma some_goroutine_can_run_witness :
  ∃ j w', step j (exec [0; 0; 0; 1; 1] (init 2)) = Some w'.
Proof.
  apply (some_goroutine_can_run 2 [0; 0; 0; 1; 1] 1 LockRecv);
    [reflexivity | discriminate].
Defined.

(** * [Lock] inside an interleaving *)












